(** * helper_functions.py: greet, calculate_square, fibonacci

    A shallow embedding of [jupyter example/helper_functions.py] and the
    properties of its three functions.

    Python values are modelled as the interpreter has them:
    - [int] is an unbounded integer, [Z];
    - [float] is an IEEE-754 binary64 datum, [spec_float] with
      [prec = 53] and [emax = 1024]; the C library's [pow], which
      [float ** 2] ends in, belongs to the platform and is a parameter;
    - [str] is a [string], the text in its UTF-8 encoding (concatenation
      of texts is concatenation of their encodings);
    - a [list] is a mutable object living in the interpreter's heap and
      handled through a reference; the heap is a finite map from
      references to the current contents of each list.

    Every function runs in a small state-and-exception monad over a
    [world]: the heap, plus a log of the heap accesses and loop iterations
    performed so far.  The log is instrumentation only; no function can
    read it. *)

From Stdlib Require Import ZArith List String Bool Lia.
From Stdlib Require Import Floats.SpecFloat.
From stdpp Require Import gmap.
Import ListNotations.

Local Open Scope Z_scope.

(** ** The interpreter's world *)

(** References to heap objects. *)
Abbreviation loc := positive.

(** What the instrumented primitives record, one event per heap access or
    loop iteration. *)
Inductive event : Type :=
| EvAlloc (r : loc)                          (* a new list object [r] *)
| EvGetItem (r : loc) (index : Z) (len : Z)  (* [r[index]], [len(r) = len] *)
| EvAppend (r : loc) (v : Z)                 (* [r.append(v)] *)
| EvIter (i : Z).                            (* one execution of a loop body *)

Record world : Type := World {
  heap : gmap loc (list Z);
  trace : list event          (* most recent event first *)
}.

(** The exceptions the modelled operations can raise.  [SystemError] stands
    for a reference that is not in the heap, which no Python program can
    produce. *)
Inductive exn : Type :=
| IndexError
| OverflowError
| SystemError.

Inductive res (A : Type) : Type :=
| Ok (a : A)
| Raise (e : exn).
Arguments Ok {A} a.
Arguments Raise {A} e.

Definition M (A : Type) : Type := world -> res A * world.

Definition ret {A} (a : A) : M A := fun w => (Ok a, w).

Definition bind {A B} (m : M A) (k : A -> M B) : M B :=
  fun w =>
    match m w with
    | (Ok a, w') => k a w'
    | (Raise e, w') => (Raise e, w')
    end.

Definition log (e : event) : M unit :=
  fun w => (Ok tt, World (heap w) (e :: trace w)).

Declare Scope py_scope.
Delimit Scope py_scope with py.
Notation "x <- m ;; k" := (bind m (fun x => k))
  (at level 100, m at next level, right associativity) : py_scope.
Notation "m ;; k" := (bind m (fun _ => k))
  (at level 100, right associativity) : py_scope.
Local Open Scope py_scope.

(** ** List objects *)

(** A list display [[a, b, ...]]: allocates a fresh list object. *)
Definition list_new (items : list Z) : M loc :=
  fun w =>
    let r := fresh (dom (heap w)) in
    (Ok r, World (<[r := items]> (heap w)) (EvAlloc r :: trace w)).

(** [l[i]] on a list value: a negative index counts from the end, and an
    index that is still out of range raises [IndexError]. *)
Definition getitem (l : list Z) (i : Z) : res Z :=
  let len := Z.of_nat (length l) in
  let j := if i <? 0 then i + len else i in
  if (j <? 0) || (len <=? j) then Raise IndexError
  else match nth_error l (Z.to_nat j) with
       | Some v => Ok v
       | None => Raise IndexError
       end.

(** [r[i]] on a list object. *)
Definition list_getitem (r : loc) (i : Z) : M Z :=
  fun w =>
    match heap w !! r with
    | None => (Raise SystemError, w)
    | Some l =>
        (getitem l i,
         World (heap w) (EvGetItem r i (Z.of_nat (length l)) :: trace w))
    end.

(** [r.append(v)]: mutates the object in place. *)
Definition list_append (r : loc) (v : Z) : M unit :=
  fun w =>
    match heap w !! r with
    | None => (Raise SystemError, w)
    | Some l =>
        (Ok tt, World (<[r := l ++ [v]]> (heap w)) (EvAppend r v :: trace w))
    end.

(** ** [range] and [for] *)

(** [range(lo, hi)] with the default step: [lo, lo+1, ..., hi-1], empty
    when [hi <= lo]. *)
Definition py_range (lo hi : Z) : list Z :=
  map (fun k => lo + Z.of_nat k) (seq 0 (Z.to_nat (hi - lo))).

(** [for i in xs: body]; an exception leaves the loop. *)
Fixpoint for_in (xs : list Z) (body : Z -> M unit) : M unit :=
  match xs with
  | [] => ret tt
  | i :: xs' => log (EvIter i) ;; body i ;; for_in xs' body
  end.

(** ** fibonacci *)

Definition fibonacci (n : Z) : M loc :=
  if n <=? 0 then list_new []
  else if n =? 1 then list_new [0]
  else if n =? 2 then list_new [0; 1]
  else
    fib_sequence <- list_new [0; 1] ;;
    for_in (py_range 2 n) (fun i =>
      a <- list_getitem fib_sequence (i - 1) ;;
      b <- list_getitem fib_sequence (i - 2) ;;
      list_append fib_sequence (a + b)) ;;
    ret fib_sequence.

(** What a caller sees of a call that returns a list: the contents of the
    returned object in the heap the call leaves behind. *)
Definition returned_list (m : M loc) (w : world) : res (list Z) :=
  match m w with
  | (Ok r, w') =>
      match heap w' !! r with
      | Some l => Ok l
      | None => Raise SystemError
      end
  | (Raise e, _) => Raise e
  end.

Definition empty_world : world := World ∅ [].

(** ** The reference sequence *)

(** The naive recursive definition: F(0)=0, F(1)=1, F(k)=F(k-1)+F(k-2). *)
Fixpoint F (k : nat) : Z :=
  match k with
  | O => 0
  | S k' =>
      match k' with
      | O => 1
      | S k'' => F k' + F k''
      end
  end.

(** Its first [k] terms, F(0) ... F(k-1). *)
Definition terms (k : nat) : list Z := map F (seq 0 k).

(** The reference sequence truncated to [n] terms. *)
Definition first_terms (n : Z) : list Z := terms (Z.to_nat n).

(** The events of the loop iteration with index [i], most recent first. *)
Definition iter_events (r : loc) (i : nat) : list event :=
  [ EvAppend r (F i);
    EvGetItem r (Z.of_nat i - 2) (Z.of_nat i);
    EvGetItem r (Z.of_nat i - 1) (Z.of_nat i);
    EvIter (Z.of_nat i) ].

(** The events of the iterations [k, k+1, ..., k+m-1], most recent first. *)
Fixpoint loop_events (r : loc) (k m : nat) : list event :=
  match m with
  | O => []
  | S m' => loop_events r (S k) m' ++ iter_events r k
  end.

(** Everything a call [fibonacci(n)] does to the world, on the object [r]
    it allocates. *)
Definition fibonacci_events (r : loc) (n : Z) : list event :=
  loop_events r 2 (Z.to_nat (n - 2)) ++ [EvAlloc r].

(** ** greet *)

(** The parts of an f-string: literal text, and replacement fields
    [{value}] without conversion or format specification. *)
Inductive fpart : Type :=
| Constant (text : string)
| FormattedValue (value : string).

(** [format(value, "")] on a [str] is the string itself. *)
Definition format_value (value : string) : string := value.

(** An f-string evaluates its parts from left to right and joins them. *)
Fixpoint joined_str (parts : list fpart) : string :=
  match parts with
  | [] => EmptyString
  | Constant text :: rest => String.append text (joined_str rest)
  | FormattedValue value :: rest =>
      String.append (format_value value) (joined_str rest)
  end.

Definition greet (name : string) : M string :=
  ret (joined_str [ Constant "Hello, ";
                    FormattedValue name;
                    Constant "! Welcome to Jupyter notebooks!" ]).

(** ** calculate_square *)

(** The numbers the function admits: [int] or [float]. *)
Inductive pynum : Type :=
| PyInt (z : Z)
| PyFloat (f : spec_float).

Inductive kind : Type := KInt | KFloat.

Definition kind_of (x : pynum) : kind :=
  match x with
  | PyInt _ => KInt
  | PyFloat _ => KFloat
  end.

(** binary64 arithmetic. *)
Definition f64_mul : spec_float -> spec_float -> spec_float := SFmul 53 1024.
Definition f64_eqb : spec_float -> spec_float -> bool := SFeqb.
Definition f64_ltb : spec_float -> spec_float -> bool := SFltb.
Definition f64_zero : spec_float := S754_zero false.
Definition f64_one : spec_float := S754_finite false 4503599627370496 (-52).

Definition is_nan (f : spec_float) : bool :=
  match f with
  | S754_nan => true
  | _ => false
  end.

Definition is_inf (f : spec_float) : bool :=
  match f with
  | S754_infinity _ => true
  | _ => false
  end.

(** *** The platform's [pow]

    [number ** 2] on a float ends in the C library's [pow(x, 2.0)], which
    is not part of the repository and differs between platforms.  C
    libraries document an error below one unit in the last place for
    [pow], so when the exact square of [x] is not a double the result is
    one of the two doubles that enclose it; which of the two is the
    platform's business.  A platform is therefore represented by [libm]:
    for each double, whether its [pow] rounds the exact square up. *)
Definition libm : Type := spec_float -> bool.

(** Rounding of a truncated mantissa [mx] in a fixed direction: nothing to
    do when the truncation was exact, otherwise stay or step up. *)
Definition round_directed (up : bool) (mx : Z) (lx : location) : Z :=
  match lx with
  | loc_Exact => mx
  | loc_Inexact _ => if up then mx + 1 else mx
  end.

(** Rounding of [mx * 2^ex] to binary64 with the rounding of the mantissa
    left to [rnd]: [SpecFloat.binary_round_aux] at [prec = 53],
    [emax = 1024], which is the instance [rnd = round_nearest_even]. *)
Definition binary_round_with (rnd : Z -> location -> Z)
    (sx : bool) (mx ex : Z) (lx : location) : spec_float :=
  let '(mrs', e') := shr_fexp 53 1024 mx ex lx in
  let '(mrs'', e'') :=
    shr_fexp 53 1024 (rnd (shr_m mrs') (loc_of_shr_record mrs')) e' loc_Exact in
  match shr_m mrs'' with
  | Z0 => S754_zero sx
  | Zpos m => if e'' <=? 1024 - 53 then S754_finite sx m e''
              else S754_infinity sx
  | Zneg _ => S754_nan
  end.

(** The exact square of [x] rounded down ([up = false]) or up. *)
Definition f64_square_dir (up : bool) (x : spec_float) : spec_float :=
  match x with
  | S754_nan => S754_nan
  | S754_infinity _ => S754_infinity false
  | S754_zero _ => S754_zero false
  | S754_finite _ m e =>
      binary_round_with (round_directed up) false (Zpos (m * m)) (e + e)
        loc_Exact
  end.

Section Platform.

(** The platform the interpreter runs on. *)
Variable rounds_up : libm.

(** The C library's [pow(x, 2.0)]: the exact square rounded in the
    direction the platform chooses for [x], infinity (with
    [errno = ERANGE]) beyond the largest double.  On a datum that is not
    a double [pow] has no meaning; the product stands in for it. *)
Definition libm_pow_2 (x : spec_float) : spec_float :=
  if valid_binary 53 1024 x then f64_square_dir (rounds_up x) x
  else f64_mul x x.

(** [iv ** 2] on a [float]: the interpreter's [float_pow] at the exponent
    [iw = 2.0], the int literal converted to a double.  It sorts out the
    special cases itself, in this order, before it calls the platform
    [pow]; a range error of [pow] becomes [OverflowError]. *)
Definition float_pow_2 (iv : spec_float) : res spec_float :=
  if is_nan iv then Ok iv                          (* nan ** w = nan *)
  else if is_inf iv then Ok (SFabs iv)             (* iw > 0, not odd *)
  else if f64_eqb iv f64_zero then Ok f64_zero     (* iw > 0, not odd *)
  else
    (* iv < 0 and iw an integer: continue with -iv; the result is not
       negated because iw is even *)
    let iv := if f64_ltb iv f64_zero then SFopp iv else iv in
    if f64_eqb iv f64_one then Ok f64_one          (* 1 ** w = 1 *)
    else
      let ix := libm_pow_2 iv in
      if is_inf ix then Raise OverflowError        (* errno = ERANGE *)
      else Ok ix.

(** [x ** 2] on an [int]: exact. *)
Definition int_pow_2 (z : Z) : Z := Z.pow z 2.

(** [number ** 2] dispatches on the type of the left operand. *)
Definition pow_2 (x : pynum) : res pynum :=
  match x with
  | PyInt z => Ok (PyInt (int_pow_2 z))
  | PyFloat f =>
      match float_pow_2 f with
      | Ok f' => Ok (PyFloat f')
      | Raise e => Raise e
      end
  end.

Definition calculate_square (number : pynum) : M pynum :=
  fun w => (pow_2 number, w).

End Platform.

(** Two platforms to evaluate on: one whose [pow] always rounds the square
    down, one whose [pow] always rounds it up. *)
Definition libm_down : libm := fun _ => false.
Definition libm_up : libm := fun _ => true.


(** Does [x ** 2] leave the range of its type?  Only a finite float whose
    square rounds to infinity does. *)
Definition square_overflows (x : pynum) : bool :=
  match x with
  | PyInt _ => false
  | PyFloat (S754_finite _ _ _ as f) => is_inf (f64_mul f f)
  | PyFloat _ => false
  end.

(** A call is pure when its outcome is the same in every world and it
    leaves the world, heap and log, as it found it. *)
Definition pure_call {A} (m : M A) : Prop :=
  exists v : res A, forall w : world, m w = (v, w).

(** The square [y] of [x] is right up to the rounding of the last bit: on
    [int] it is the exact square; on [float] it is the exact square rounded
    down or rounded up. *)
Definition square_up_to_rounding (x y : pynum) : Prop :=
  match x, y with
  | PyInt z, PyInt z' => z' = z * z
  | PyFloat f, PyFloat r =>
      r = f64_square_dir false f \/ r = f64_square_dir true f
  | _, _ => False
  end.


(** 2^600 as a double. *)
Definition two_pow_600 : spec_float := S754_finite false 4503599627370496 548.

(** 2.759 and 95.97 as doubles, and 1.5. *)
Definition f64_2_759 : spec_float := S754_finite false 6212715685957599 (-51).
Definition f64_95_97 : spec_float := S754_finite false 6753288378730414 (-46).

(** ** Observations on the log *)

(** Is [e] the start of a loop iteration? *)
Definition is_iter (e : event) : bool :=
  match e with
  | EvIter _ => true
  | _ => false
  end.

(** The number of loop iterations among the events [evs]. *)
Definition iterations (evs : list event) : nat :=
  length (List.filter is_iter evs).

(** An index read is in bounds when it lies in [0, len). *)
Definition read_in_bounds (e : event) : bool :=
  match e with
  | EvGetItem _ index len => (0 <=? index) && (index <? len)
  | _ => true
  end.

(** Does [e] touch no heap object other than [r]? *)
Definition event_on (r : loc) (e : event) : bool :=
  match e with
  | EvAlloc r' | EvGetItem r' _ _ | EvAppend r' _ => Pos.eqb r' r
  | EvIter _ => true
  end.

(** ** Further observations *)

Definition is_alloc (e : event) : bool :=
  match e with
  | EvAlloc _ => true
  | _ => false
  end.

Definition is_read (e : event) : bool :=
  match e with
  | EvGetItem _ _ _ => true
  | _ => false
  end.

Definition is_append (e : event) : bool :=
  match e with
  | EvAppend _ _ => true
  | _ => false
  end.

(** How many of the events [evs] satisfy [p]. *)
Definition count_events (p : event -> bool) (evs : list event) : nat :=
  length (List.filter p evs).


(** Does [x] carry no minus sign?  An [int] must be [>= 0]; a float must
    have its sign bit clear, so [-0.0] does not qualify; NaN has no sign. *)
Definition sign_clear (x : pynum) : bool :=
  match x with
  | PyInt z => 0 <=? z
  | PyFloat S754_nan => true
  | PyFloat (S754_zero s) => negb s
  | PyFloat (S754_infinity s) => negb s
  | PyFloat (S754_finite s _ _) => negb s
  end.

(** Float comparison [a <= b]; false when either side is NaN. *)
Definition f64_leb : spec_float -> spec_float -> bool := SFleb.

(** 2^511 and 2^512 as doubles. *)
Definition two_pow_511 : spec_float := S754_finite false 4503599627370496 459.
Definition two_pow_512 : spec_float := S754_finite false 4503599627370496 460.

(** * Properties *)

(** ** The reference sequence *)

Lemma F_step (k : nat) : F (S (S k)) = F (S k) + F k.
Proof. reflexivity. Qed.

Lemma F_nonneg (k : nat) : 0 <= F k /\ 0 <= F (S k).
Proof.
  induction k as [|k [IH0 IH1]].
  - cbn. lia.
  - split; [exact IH1|]. rewrite F_step. lia.
Qed.

Lemma F_mono (k : nat) : F k <= F (S k).
Proof.
  destruct k as [|k]; [cbn; lia|].
  rewrite F_step. pose proof (F_nonneg k). lia.
Qed.

Lemma length_terms (k : nat) : length (terms k) = k.
Proof. unfold terms. now rewrite length_map, length_seq. Qed.

Lemma terms_S (k : nat) : terms (S k) = terms k ++ [F k].
Proof. unfold terms. now rewrite seq_S, map_app. Qed.

Lemma nth_error_terms (k j : nat) :
  (j < k)%nat -> nth_error (terms k) j = Some (F j).
Proof.
  intros Hj. unfold terms.
  rewrite nth_error_map, nth_error_seq.
  destruct (Nat.ltb_spec j k); [reflexivity | lia].
Qed.

(** ** Indexing *)

Lemma getitem_terms (k j : nat) :
  (j < k)%nat -> getitem (terms k) (Z.of_nat j) = Ok (F j).
Proof.
  intros Hj. unfold getitem. rewrite length_terms.
  assert ((Z.of_nat j <? 0) = false) as Hneg by lia.
  assert ((Z.of_nat k <=? Z.of_nat j) = false) as Hlen by lia.
  rewrite Hneg. cbv iota zeta. rewrite Hneg, Hlen. cbn [orb].
  rewrite Nat2Z.id, nth_error_terms by exact Hj.
  reflexivity.
Qed.

Lemma map_offset_seq (lo s m : nat) :
  map (fun k => Z.of_nat lo + Z.of_nat k) (seq s m) =
  map Z.of_nat (seq (lo + s) m).
Proof.
  revert s. induction m as [|m IH]; intros s; cbn [seq map].
  - reflexivity.
  - f_equal; [lia|]. rewrite IH. now rewrite Nat.add_succ_r.
Qed.

Lemma py_range_seq (lo : nat) (hi : Z) :
  py_range (Z.of_nat lo) hi =
  map Z.of_nat (seq lo (Z.to_nat (hi - Z.of_nat lo))).
Proof.
  unfold py_range. rewrite map_offset_seq. now rewrite Nat.add_0_r.
Qed.

(** ** The primitives on a live list object *)

Lemma list_getitem_run (r : loc) (i : Z) (w : world) (l : list Z) :
  heap w !! r = Some l ->
  forall t,
    list_getitem r i (World (heap w) t) =
    (getitem l i, World (heap w) (EvGetItem r i (Z.of_nat (length l)) :: t)).
Proof. intros Hr t. unfold list_getitem. cbn [heap trace]. now rewrite Hr. Qed.

Lemma list_append_run (r : loc) (v : Z) (w : world) (l : list Z) :
  heap w !! r = Some l ->
  forall t,
    list_append r v (World (heap w) t) =
    (Ok tt, World (<[r := l ++ [v]]> (heap w)) (EvAppend r v :: t)).
Proof. intros Hr t. unfold list_append. cbn [heap trace]. now rewrite Hr. Qed.

(** ** The loop of [fibonacci] *)

Section FibLoop.

(** The list object the loop works on, [fib_sequence]. *)
Variable r : loc.

(** One execution of the loop body at index [k], from a world where the
    list object [r] holds the first [k] terms. *)
Lemma loop_body_run (k : nat) (w : world) :
  (2 <= k)%nat ->
  heap w !! r = Some (terms k) ->
  (log (EvIter (Z.of_nat k)) ;;
   a <- list_getitem r (Z.of_nat k - 1) ;;
   b <- list_getitem r (Z.of_nat k - 2) ;;
   list_append r (a + b)) w
  = (Ok tt, World (<[r := terms (S k)]> (heap w)) (iter_events r k ++ trace w)).
Proof.
  intros Hk Hr.
  destruct k as [|[|k]]; [lia | lia |].
  replace (Z.of_nat (S (S k)) - 1) with (Z.of_nat (S k)) by lia.
  replace (Z.of_nat (S (S k)) - 2) with (Z.of_nat k) by lia.
  unfold bind at 1. unfold log.
  unfold bind at 1. rewrite (list_getitem_run r _ _ _ Hr).
  rewrite getitem_terms by lia.
  unfold bind at 1. rewrite (list_getitem_run r _ _ _ Hr).
  rewrite getitem_terms by lia.
  rewrite (list_append_run r _ _ _ Hr).
  rewrite length_terms, (terms_S (S (S k))), F_step.
  unfold iter_events.
  replace (Z.of_nat (S (S k)) - 1) with (Z.of_nat (S k)) by lia.
  replace (Z.of_nat (S (S k)) - 2) with (Z.of_nat k) by lia.
  reflexivity.
Qed.

(** The iterations [k, ..., k+m-1] extend the list from [k] to [k+m] terms
    and touch nothing but [r]. *)
Lemma loop_run (m : nat) :
  forall (k : nat) (w : world),
    (2 <= k)%nat ->
    heap w !! r = Some (terms k) ->
    for_in (map Z.of_nat (seq k m)) (fun i =>
      a <- list_getitem r (i - 1) ;;
      b <- list_getitem r (i - 2) ;;
      list_append r (a + b)) w
    = (Ok tt,
       World (<[r := terms (k + m)]> (heap w)) (loop_events r k m ++ trace w)).
Proof.
  induction m as [|m IH]; intros k w Hk Hr.
  - cbn [seq map for_in loop_events app]. unfold ret.
    rewrite Nat.add_0_r, insert_id by exact Hr. now destruct w.
  - cbn [seq map for_in loop_events].
    pose proof (loop_body_run k w Hk Hr) as Hbody.
    unfold bind in Hbody |- *.
    destruct (log (EvIter (Z.of_nat k)) w) as [[[]|e] w0]; [|discriminate].
    destruct (list_getitem r (Z.of_nat k - 1) w0) as [[a|e] w1]; [|discriminate].
    destruct (list_getitem r (Z.of_nat k - 2) w1) as [[b|e] w2]; [|discriminate].
    rewrite Hbody.
    rewrite IH; cbn [heap trace].
    + rewrite insert_insert_eq, <- app_assoc, Nat.add_succ_comm. reflexivity.
    + lia.
    + apply lookup_insert_eq.
Qed.

End FibLoop.

(** ** What a call of [fibonacci] does *)

(** From any world, [fibonacci n] returns a fresh list object holding the
    first [n] reference terms, leaves every other object as it was, and
    logs exactly [fibonacci_events]. *)
Lemma fibonacci_run (n : Z) (w : world) :
  let r := fresh (dom (heap w)) in
  fibonacci n w =
  (Ok r, World (<[r := first_terms n]> (heap w)) (fibonacci_events r n ++ trace w)).
Proof.
  intros r. unfold fibonacci, fibonacci_events, first_terms.
  destruct (Z.leb_spec n 0) as [H0|H0].
  { replace (Z.to_nat n) with 0%nat by lia.
    replace (Z.to_nat (n - 2)) with 0%nat by lia. reflexivity. }
  destruct (Z.eqb_spec n 1) as [->|H1]; [reflexivity|].
  destruct (Z.eqb_spec n 2) as [->|H2]; [reflexivity|].
  unfold bind at 1. unfold list_new at 1. fold r.
  unfold bind at 1.
  change 2 with (Z.of_nat 2) at 1. rewrite py_range_seq.
  rewrite (loop_run r _ 2); cbn [heap trace].
  - unfold ret. rewrite insert_insert_eq, <- app_assoc. cbn [app].
    replace (2 + Z.to_nat (n - Z.of_nat 2))%nat with (Z.to_nat n) by lia.
    replace (n - Z.of_nat 2) with (n - 2) by lia.
    reflexivity.
  - lia.
  - apply lookup_insert_eq.
Qed.

Lemma fresh_not_in_heap (w : world) : heap w !! fresh (dom (heap w)) = None.
Proof. apply not_elem_of_dom, is_fresh. Qed.

Lemma fibonacci_returns (n : Z) (w : world) :
  returned_list (fibonacci n) w = Ok (first_terms n).
Proof.
  unfold returned_list. rewrite fibonacci_run. cbn [heap].
  now rewrite lookup_insert_eq.
Qed.

(** ** fibonacci against the reference sequence *)

(** C1.  For every non-negative integer [n], [fibonacci(n)] returns exactly
    the first [n] terms of the sequence defined recursively by F(0)=0,
    F(1)=1, F(k)=F(k-1)+F(k-2); in particular
    [fibonacci(5) == [0, 1, 1, 2, 3]] and
    [fibonacci(10) == [0, 1, 1, 2, 3, 5, 8, 13, 21, 34]]. *)
Theorem fibonacci_refines_reference :
  (forall (n : Z) (w : world),
      0 <= n -> returned_list (fibonacci n) w = Ok (first_terms n))
  /\ (forall w : world,
         returned_list (fibonacci 5) w = Ok [0; 1; 1; 2; 3])
  /\ (forall w : world,
         returned_list (fibonacci 10) w = Ok [0; 1; 1; 2; 3; 5; 8; 13; 21; 34]).
Proof.
  repeat split; intros; apply fibonacci_returns.
Qed.

Lemma fibonacci_refines_reference_witness :
  0 <= 7 /\
  returned_list (fibonacci 7) empty_world = Ok (first_terms 7).
Proof.
  split; [lia|].
  apply (proj1 fibonacci_refines_reference 7 empty_world). lia.
Defined.

(** C2.  The edge cases: for every integer [n <= 0] the result is the empty
    list, for [n == 1] it is [[0]], and for [n == 2] it is [[0, 1]]. *)
Theorem fibonacci_edge_cases :
  forall w : world,
    (forall n : Z, n <= 0 -> returned_list (fibonacci n) w = Ok [])
    /\ returned_list (fibonacci 1) w = Ok [0]
    /\ returned_list (fibonacci 2) w = Ok [0; 1].
Proof.
  intros w. repeat split.
  - intros n Hn. rewrite fibonacci_returns. unfold first_terms.
    now replace (Z.to_nat n) with 0%nat by lia.
  - apply fibonacci_returns.
  - apply fibonacci_returns.
Qed.

Lemma fibonacci_edge_cases_witness :
  -3 <= 0 /\ returned_list (fibonacci (-3)) empty_world = Ok [].
Proof.
  split; [lia|].
  apply (proj1 (fibonacci_edge_cases empty_world) (-3)). lia.
Defined.

(** C3.  For every integer [n], negative ones included, the length of the
    list returned by [fibonacci(n)] is [max(n, 0)]. *)
Theorem fibonacci_length :
  forall (n : Z) (w : world),
  exists l : list Z,
    returned_list (fibonacci n) w = Ok l
    /\ Z.of_nat (length l) = Z.max n 0.
Proof.
  intros n w. exists (first_terms n). split; [apply fibonacci_returns|].
  unfold first_terms. rewrite length_terms. lia.
Qed.

(** C4.  For every integer [n >= 2] and every index [k] with
    [2 <= k < n], the [k]-th element of [fibonacci(n)] is the sum of its
    [(k-1)]-th and [(k-2)]-th elements. *)
Theorem fibonacci_recurrence :
  forall (n k : Z) (w : world),
    2 <= n ->
    2 <= k < n ->
    exists (l : list Z) (a b c : Z),
      returned_list (fibonacci n) w = Ok l
      /\ getitem l k = Ok a
      /\ getitem l (k - 1) = Ok b
      /\ getitem l (k - 2) = Ok c
      /\ a = b + c.
Proof.
  intros n k w Hn Hk.
  set (j := Z.to_nat (k - 2)).
  exists (first_terms n), (F (S (S j))), (F (S j)), (F j).
  split; [apply fibonacci_returns|].
  unfold first_terms.
  replace k with (Z.of_nat (S (S j))) by lia.
  replace (Z.of_nat (S (S j)) - 1) with (Z.of_nat (S j)) by lia.
  replace (Z.of_nat (S (S j)) - 2) with (Z.of_nat j) by lia.
  rewrite !getitem_terms by lia.
  repeat split.
Qed.

Lemma fibonacci_recurrence_witness :
  2 <= 6 /\ 2 <= 4 < 6 /\
  exists (l : list Z) (a b c : Z),
    returned_list (fibonacci 6) empty_world = Ok l
    /\ getitem l 4 = Ok a
    /\ getitem l (4 - 1) = Ok b
    /\ getitem l (4 - 2) = Ok c
    /\ a = b + c.
Proof.
  split; [lia|]. split; [lia|].
  apply (fibonacci_recurrence 6 4 empty_world); lia.
Defined.

(** ** greet *)

(** C5.  For every name string [s], [greet(s)] returns exactly the
    concatenation ["Hello, " + s + "! Welcome to Jupyter notebooks!"]. *)
Theorem greet_concatenation :
  forall (s : string) (w : world),
    greet s w =
    (Ok (String.append (String.append "Hello, " s)
                       "! Welcome to Jupyter notebooks!"), w).
Proof.
  intros s w. unfold greet, ret. do 2 f_equal.
Qed.

(** ** fibonacci: values and order *)

Lemma terms_nonneg (k : nat) : Forall (fun x => 0 <= x) (terms k).
Proof.
  unfold terms. apply List.Forall_forall. intros x Hx.
  apply in_map_iff in Hx as (j & <- & _). apply F_nonneg.
Qed.

Lemma terms_adjacent (k i : nat) (a b : Z) :
  nth_error (terms k) i = Some a ->
  nth_error (terms k) (S i) = Some b ->
  a <= b.
Proof.
  intros Ha Hb.
  assert (S i < k)%nat as Hi.
  { rewrite <- (length_terms k). apply nth_error_Some. congruence. }
  rewrite nth_error_terms in Ha, Hb by lia.
  injection Ha as <-. injection Hb as <-. apply F_mono.
Qed.

(** C9.  For every integer [n], every element of the list returned by
    [fibonacci(n)] is a non-negative integer, and each element is greater
    than or equal to the element before it. *)
Theorem fibonacci_nonneg_nondecreasing :
  forall (n : Z) (w : world),
  exists l : list Z,
    returned_list (fibonacci n) w = Ok l
    /\ Forall (fun x => 0 <= x) l
    /\ (forall (i : nat) (a b : Z),
           nth_error l i = Some a -> nth_error l (S i) = Some b -> a <= b).
Proof.
  intros n w. exists (first_terms n).
  split; [apply fibonacci_returns|]. split.
  - apply terms_nonneg.
  - apply terms_adjacent.
Qed.

(** ** fibonacci: the log of a call *)

Lemma iterations_app (evs1 evs2 : list event) :
  iterations (evs1 ++ evs2) = (iterations evs1 + iterations evs2)%nat.
Proof. unfold iterations. now rewrite List.filter_app, length_app. Qed.

Lemma iterations_loop_events (r : loc) (m : nat) :
  forall k : nat, iterations (loop_events r k m) = m.
Proof.
  induction m as [|m IH]; intros k; cbn [loop_events].
  - reflexivity.
  - rewrite iterations_app, IH. cbn. lia.
Qed.

Lemma iterations_fibonacci_events (r : loc) (n : Z) :
  iterations (fibonacci_events r n) = Z.to_nat (Z.max (n - 2) 0).
Proof.
  unfold fibonacci_events.
  rewrite iterations_app, iterations_loop_events. cbn. lia.
Qed.

Lemma loop_events_in_bounds (r : loc) (m : nat) :
  forall k : nat,
    (2 <= k)%nat ->
    Forall (fun e => read_in_bounds e = true) (loop_events r k m).
Proof.
  induction m as [|m IH]; intros k Hk; cbn [loop_events].
  - constructor.
  - apply Forall_app. split; [apply IH; lia|].
    unfold iter_events. repeat constructor; cbn [read_in_bounds]; lia.
Qed.

Lemma loop_events_on (r : loc) (m : nat) :
  forall k : nat, Forall (fun e => event_on r e = true) (loop_events r k m).
Proof.
  induction m as [|m IH]; intros k; cbn [loop_events].
  - constructor.
  - apply Forall_app. split; [apply IH|].
    unfold iter_events.
    repeat constructor; cbn [event_on]; apply Pos.eqb_refl.
Qed.

(** C10.  [fibonacci] is total and terminates for every integer [n],
    arbitrarily negative ones included: the call returns, without an
    exception; its loop executes exactly [max(n - 2, 0)] iterations, and
    every list index it reads lies within the bounds of the list. *)
Theorem fibonacci_total :
  forall (n : Z) (w : world),
  exists (r : loc) (w' : world) (evs : list event),
    fibonacci n w = (Ok r, w')
    /\ trace w' = evs ++ trace w
    /\ iterations evs = Z.to_nat (Z.max (n - 2) 0)
    /\ Forall (fun e => read_in_bounds e = true) evs.
Proof.
  intros n w. pose proof (fibonacci_run n w) as Hrun. cbv zeta in Hrun.
  eexists _, _, _. split; [exact Hrun|]. cbn [trace].
  split; [reflexivity|]. split.
  - apply iterations_fibonacci_events.
  - unfold fibonacci_events. apply Forall_app. split.
    + apply loop_events_in_bounds. lia.
    + repeat constructor.
Qed.

(** ** Purity *)

(** C8.  The three functions are deterministic and pure.  [greet] and
    [calculate_square] have the same outcome in every world and leave the
    world untouched.  [fibonacci(n)] returns a list whose contents depend on
    [n] alone; the list is a fresh object, every object that existed before
    the call is unchanged, and every heap access of the call is on the
    object it allocated itself. *)
Theorem functions_pure :
  (forall s : string, pure_call (greet s))
  /\ (forall (up : libm) (x : pynum), pure_call (calculate_square up x))
  /\ (forall n : Z,
      exists l : list Z,
      forall w : world,
      exists (r : loc) (w' : world) (evs : list event),
        fibonacci n w = (Ok r, w')
        /\ heap w !! r = None
        /\ heap w' = <[r := l]> (heap w)
        /\ (forall r' : loc, r' <> r -> heap w' !! r' = heap w !! r')
        /\ trace w' = evs ++ trace w
        /\ Forall (fun e => event_on r e = true) evs).
Proof.
  split; [|split].
  - intros s. eexists. intros w. reflexivity.
  - intros up x. eexists. intros w. reflexivity.
  - intros n. exists (first_terms n). intros w.
    pose proof (fibonacci_run n w) as Hrun. cbv zeta in Hrun.
    eexists _, _, _. split; [exact Hrun|]. cbn [heap trace].
    split; [apply fresh_not_in_heap|].
    split; [reflexivity|].
    split; [intros r' Hr'; now apply lookup_insert_ne|].
    split; [reflexivity|].
    unfold fibonacci_events. apply Forall_app. split.
    + apply loop_events_on.
    + repeat constructor. cbn [event_on]. apply Pos.eqb_refl.
Qed.

(** ** Rounding to binary64 *)

(** Shifting a mantissa right divides it by a power of two. *)
Lemma digits2_pos_bounds (p : positive) :
  2 ^ (Zpos (digits2_pos p) - 1) <= Zpos p < 2 ^ Zpos (digits2_pos p).
Proof.
  induction p as [p IH|p IH|]; cbn [digits2_pos].
  - rewrite Pos2Z.inj_succ.
    replace (Z.succ (Zpos (digits2_pos p)) - 1) with (Z.succ (Zpos (digits2_pos p) - 1)) by lia.
    rewrite !Z.pow_succ_r by lia. lia.
  - rewrite Pos2Z.inj_succ.
    replace (Z.succ (Zpos (digits2_pos p)) - 1) with (Z.succ (Zpos (digits2_pos p) - 1)) by lia.
    rewrite !Z.pow_succ_r by lia. lia.
  - cbn. lia.
Qed.

Lemma shr_1_m (mrs : shr_record) :
  0 <= shr_m mrs -> shr_m (shr_1 mrs) = shr_m mrs / 2.
Proof.
  destruct mrs as [m r s]. cbn [shr_m]. intros Hm. unfold shr_1.
  destruct m as [|[p|p|]|p]; cbn [shr_m].
  - reflexivity.
  - apply Z.div_unique with (r := 1); lia.
  - apply Z.div_unique with (r := 0); lia.
  - reflexivity.
  - lia.
Qed.

Lemma iter_shr_1_m (p : positive) :
  forall mrs : shr_record,
    0 <= shr_m mrs ->
    shr_m (SpecFloat.iter_pos shr_1 p mrs) = shr_m mrs / 2 ^ Zpos p.
Proof.
  induction p as [p IH|p IH|]; intros mrs Hm; cbn [SpecFloat.iter_pos].
  - assert (0 <= shr_m (shr_1 mrs)) as H1
      by (rewrite shr_1_m by lia; apply Z.div_pos; lia).
    assert (0 <= shr_m (SpecFloat.iter_pos shr_1 p (shr_1 mrs))) as H2
      by (rewrite IH by lia; apply Z.div_pos; lia).
    rewrite IH, IH, shr_1_m by lia.
    rewrite !Z.div_div by lia. f_equal.
    replace (Zpos p~1) with (1 + Zpos p + Zpos p) by lia.
    rewrite !Z.pow_add_r by lia. lia.
  - assert (0 <= shr_m (SpecFloat.iter_pos shr_1 p mrs)) as H2
      by (rewrite IH by lia; apply Z.div_pos; lia).
    rewrite IH, IH by lia.
    rewrite !Z.div_div by lia. f_equal.
    replace (Zpos p~0) with (Zpos p + Zpos p) by lia.
    rewrite !Z.pow_add_r by lia. lia.
  - rewrite shr_1_m by lia. reflexivity.
Qed.

Lemma Zdigits2_bounds (m : Z) :
  0 <= m ->
  0 <= Zdigits2 m /\ m < 2 ^ Zdigits2 m /\ (0 < m -> 2 ^ (Zdigits2 m - 1) <= m).
Proof.
  intros Hm. destruct m as [|p|p]; cbn [Zdigits2]; [cbn; lia| |lia].
  pose proof (digits2_pos_bounds p). lia.
Qed.

Lemma shr_record_of_loc_m (m : Z) (l : location) :
  shr_m (shr_record_of_loc m l) = m.
Proof. now destruct l as [|[| |]]. Qed.

Lemma pow2_split (a b : Z) : 0 <= a -> 0 <= b -> 2 ^ (a + b) = 2 ^ a * 2 ^ b.
Proof. intros. now apply Z.pow_add_r. Qed.

(** One normalisation step, on a mantissa [m >= 0] with exponent [e]. *)
Lemma shr_fexp_bounds (m e : Z) (l : location) (mrs : shr_record) (e1 : Z) :
  0 <= m ->
  shr_fexp 53 1024 m e l = (mrs, e1) ->
  0 <= shr_m mrs < 2 ^ 53
  /\ e1 = Z.max e (Z.max (Zdigits2 m + e - 53) (-1074))
  /\ shr_m mrs = m / 2 ^ (e1 - e)
  /\ (2 ^ 52 <= m -> -1074 <= e -> 2 ^ 52 <= shr_m mrs).
Proof.
  intros Hm. unfold shr_fexp, shr, fexp, emin.
  destruct (Zdigits2_bounds m Hm) as (Hd0 & Hdu & Hdl).
  set (d := Zdigits2 m) in *.
  replace (3 - 1024 - 53) with (-1074) by reflexivity.
  destruct (Z.max (d + e - 53) (-1074) - e) as [|n|n] eqn:Hn.
  - intros [= <- <-]. rewrite shr_record_of_loc_m.
    assert (d <= 53) as Hd by lia.
    assert (2 ^ d <= 2 ^ 53) by (apply Z.pow_le_mono_r; lia).
    replace (e - e) with 0 by lia.
    rewrite Z.pow_0_r, Z.div_1_r. repeat split; lia.
  - intros [= <- <-].
    rewrite iter_shr_1_m by (rewrite shr_record_of_loc_m; lia).
    rewrite shr_record_of_loc_m.
    assert (0 < 2 ^ Zpos n) as Hpow by (apply Z.pow_pos_nonneg; lia).
    assert (d - 53 <= Zpos n) as Hdn by lia.
    repeat split.
    + apply Z.div_pos; lia.
    + apply Z.div_lt_upper_bound; [lia|].
      destruct (Z.le_gt_cases d 53) as [Hle|Hgt].
      * assert (2 ^ d <= 2 ^ 53) by (apply Z.pow_le_mono_r; lia). nia.
      * assert (2 ^ d <= 2 ^ (53 + Zpos n)) by (apply Z.pow_le_mono_r; lia).
        rewrite pow2_split in * by lia. lia.
    + lia.
    + f_equal. f_equal. lia.
    + intros Hbig He.
      assert (53 <= d) as Hd.
      { destruct (Z.le_gt_cases 53 d) as [|Hlt]; [assumption|].
        assert (2 ^ d <= 2 ^ 52) by (apply Z.pow_le_mono_r; lia). lia. }
      assert (Zpos n = d - 53) as Hnd by lia.
      apply Z.div_le_lower_bound; [lia|].
      specialize (Hdl ltac:(lia)).
      replace (d - 1) with (Zpos n + 52) in Hdl by lia.
      rewrite pow2_split in Hdl by lia. lia.
  - intros [= <- <-]. rewrite shr_record_of_loc_m.
    assert (d <= 53) as Hd by lia.
    assert (2 ^ d <= 2 ^ 53) by (apply Z.pow_le_mono_r; lia).
    replace (e - e) with 0 by lia.
    rewrite Z.pow_0_r, Z.div_1_r. repeat split; lia.
Qed.

Lemma Zdigits2_lower (m k : Z) : 0 <= k -> 2 ^ k <= m -> k < Zdigits2 m.
Proof.
  intros Hk Hm.
  assert (0 < 2 ^ k) by (apply Z.pow_pos_nonneg; lia).
  destruct (Zdigits2_bounds m ltac:(lia)) as (Hd0 & Hdu & _).
  destruct (Z.lt_ge_cases k (Zdigits2 m)) as [|Hge]; [assumption|].
  assert (2 ^ Zdigits2 m <= 2 ^ k) by (apply Z.pow_le_mono_r; lia). lia.
Qed.

Lemma Zdigits2_upper (m k : Z) : 0 <= k -> 0 <= m < 2 ^ k -> Zdigits2 m <= k.
Proof.
  intros Hk Hm.
  destruct (Zdigits2_bounds m ltac:(lia)) as (Hd0 & _ & Hdl).
  destruct (Z.eq_dec m 0) as [->|Hne]; [cbn; lia|].
  specialize (Hdl ltac:(lia)).
  destruct (Z.le_gt_cases (Zdigits2 m) k) as [|Hgt]; [assumption|].
  assert (2 ^ k <= 2 ^ (Zdigits2 m - 1)) by (apply Z.pow_le_mono_r; lia). lia.
Qed.

(** Rounding to nearest is the instance of [binary_round_with] the product
    uses, and it always agrees with one of the two directions. *)
Lemma binary_round_aux_with (sx : bool) (mx ex : Z) (lx : location) :
  binary_round_aux 53 1024 sx mx ex lx =
  binary_round_with round_nearest_even sx mx ex lx.
Proof. reflexivity. Qed.

Lemma round_nearest_even_bounds (mx : Z) (lx : location) :
  mx <= round_nearest_even mx lx <= mx + 1.
Proof.
  unfold round_nearest_even.
  destruct lx as [|[| |]]; try lia. destruct (Z.even mx); lia.
Qed.

Lemma round_directed_bounds (up : bool) (mx : Z) (lx : location) :
  mx <= round_directed up mx lx <= mx + 1.
Proof. unfold round_directed. destruct lx, up; lia. Qed.

Lemma round_nearest_even_directed (mx : Z) (lx : location) :
  exists up : bool, round_nearest_even mx lx = round_directed up mx lx.
Proof.
  unfold round_nearest_even, round_directed.
  destruct lx as [|[| |]].
  - now exists false.
  - destruct (Z.even mx); [now exists false | now exists true].
  - now exists false.
  - now exists true.
Qed.

Lemma nearest_is_directed (sx : bool) (mx ex : Z) (lx : location) :
  exists up : bool,
    binary_round_aux 53 1024 sx mx ex lx =
    binary_round_with (round_directed up) sx mx ex lx.
Proof.
  rewrite binary_round_aux_with. unfold binary_round_with.
  destruct (shr_fexp 53 1024 mx ex lx) as [mrs' e'].
  destruct (round_nearest_even_directed (shr_m mrs') (loc_of_shr_record mrs'))
    as [up Hup].
  exists up. now rewrite Hup.
Qed.

Lemma binary_round_with_sign_clear
    (rnd : Z -> location -> Z) (m e : Z) (l : location) :
  sign_clear (PyFloat (binary_round_with rnd false m e l)) = true.
Proof.
  unfold binary_round_with.
  destruct (shr_fexp 53 1024 m e l) as [mrs' e'].
  destruct (shr_fexp 53 1024 _ e' loc_Exact) as [mrs'' e''].
  destruct (shr_m mrs'') as [|p|p]; try reflexivity.
  now destruct (e'' <=? 1024 - 53).
Qed.

Section Rounding.

(** Any rounding of the mantissa that stays or steps up by one. *)
Variable rnd : Z -> location -> Z.
Hypothesis rnd_bounds : forall mx lx, mx <= rnd mx lx <= mx + 1.

(** From [2^1024] on, the result is infinity. *)
Lemma binary_round_with_overflow (M E : Z) :
  2 ^ 104 <= M -> 920 <= E ->
  binary_round_with rnd false M E loc_Exact = S754_infinity false.
Proof.
  intros HM HE. unfold binary_round_with.
  assert (2 ^ 52 <= 2 ^ 104) by (apply Z.pow_le_mono_r; lia).
  assert (0 < 2 ^ 52) by (apply Z.pow_pos_nonneg; lia).
  destruct (shr_fexp 53 1024 M E loc_Exact) as [mrs' e'] eqn:H1.
  apply shr_fexp_bounds in H1 as (Hb1 & He1 & _ & Hbig1); [|lia].
  specialize (Hbig1 ltac:(lia) ltac:(lia)).
  pose proof (Zdigits2_lower M 104 ltac:(lia) HM) as Hd.
  pose proof (rnd_bounds (shr_m mrs') (loc_of_shr_record mrs')) as Hround.
  set (mx := rnd (shr_m mrs') (loc_of_shr_record mrs')) in *.
  destruct (shr_fexp 53 1024 mx e' loc_Exact) as [mrs'' e''] eqn:H2.
  apply shr_fexp_bounds in H2 as (Hb2 & He2 & _ & Hbig2); [|lia].
  specialize (Hbig2 ltac:(lia) ltac:(lia)).
  destruct (shr_m mrs'') as [|q|q]; [lia| |lia].
  destruct (Z.leb_spec e'' (1024 - 53)); [lia | reflexivity].
Qed.

(** Below [2^1023] the result is not infinity. *)
Lemma binary_round_with_in_range (sx : bool) (M E k : Z) (l : location) :
  0 <= k -> 0 <= M < 2 ^ k -> k + E <= 1023 -> E <= 970 ->
  is_inf (binary_round_with rnd sx M E l) = false.
Proof.
  intros Hk HM HkE HE. unfold binary_round_with.
  destruct (shr_fexp 53 1024 M E l) as [mrs' e'] eqn:H1.
  apply shr_fexp_bounds in H1 as (Hb1 & He1 & _ & _); [|lia].
  pose proof (Zdigits2_upper M k Hk HM) as Hd.
  pose proof (rnd_bounds (shr_m mrs') (loc_of_shr_record mrs')) as Hround.
  set (mx := rnd (shr_m mrs') (loc_of_shr_record mrs')) in *.
  destruct (shr_fexp 53 1024 mx e' loc_Exact) as [mrs'' e''] eqn:H2.
  apply shr_fexp_bounds in H2 as (Hb2 & He2 & _ & _); [|lia].
  assert (2 ^ 54 = 2 * 2 ^ 53) as H54 by reflexivity.
  pose proof (Zdigits2_upper mx 54 ltac:(lia) ltac:(lia)) as Hd2.
  destruct (shr_m mrs'') as [|q|q]; try reflexivity.
  destruct (Z.leb_spec e'' (1024 - 53)); [reflexivity | lia].
Qed.

(** Nor is it up to the square of the largest mantissa at the largest
    exponent below [2^512]: the mantissa cannot round up to [2^53]. *)
Lemma binary_round_with_below_max (sx : bool) (M : Z) (l : location) :
  0 <= M < 2 ^ 106 - 2 ^ 53 ->
  is_inf (binary_round_with rnd sx M 918 l) = false.
Proof.
  intros HM. unfold binary_round_with.
  assert (0 < 2 ^ 53) as H53 by reflexivity.
  assert (2 ^ 106 = 2 ^ 53 * 2 ^ 53) as H106 by reflexivity.
  destruct (shr_fexp 53 1024 M 918 l) as [mrs' e'] eqn:H1.
  apply shr_fexp_bounds in H1 as (Hb1 & He1 & Hdiv1 & _); [|lia].
  pose proof (Zdigits2_upper M 106 ltac:(lia) ltac:(lia)) as Hd.
  pose proof (rnd_bounds (shr_m mrs') (loc_of_shr_record mrs')) as Hround.
  set (mx := rnd (shr_m mrs') (loc_of_shr_record mrs')) in *.
  assert (e' <= 970 \/ (e' = 971 /\ mx < 2 ^ 53)) as Hcase.
  { destruct (Z.le_gt_cases e' 970) as [|Hgt]; [now left|right].
    assert (e' = 971) as He' by lia. split; [exact He'|].
    rewrite He' in Hdiv1. replace (971 - 918) with 53 in Hdiv1 by lia.
    assert (shr_m mrs' < 2 ^ 53 - 1); [|lia].
    rewrite Hdiv1. apply Z.div_lt_upper_bound; lia. }
  destruct (shr_fexp 53 1024 mx e' loc_Exact) as [mrs'' e''] eqn:H2.
  apply shr_fexp_bounds in H2 as (Hb2 & He2 & _ & _); [|lia].
  assert (2 ^ 54 = 2 * 2 ^ 53) as H54 by reflexivity.
  assert (e'' <= 971) as He''.
  { destruct Hcase as [Hle|[Heq Hmx]].
    - pose proof (Zdigits2_upper mx 54 ltac:(lia) ltac:(lia)). lia.
    - pose proof (Zdigits2_upper mx 53 ltac:(lia) ltac:(lia)). lia. }
  destruct (shr_m mrs'') as [|q|q]; try reflexivity.
  destruct (Z.leb_spec e'' (1024 - 53)); [reflexivity | lia].
Qed.

End Rounding.

(** A valid binary64 mantissa has at most 53 bits, and exactly 53 above the
    subnormal range. *)
Lemma valid_mantissa (s : bool) (m : positive) (e : Z) :
  valid_binary 53 1024 (S754_finite s m e) = true ->
  Zpos m < 2 ^ 53 /\ (-1074 < e -> 2 ^ 52 <= Zpos m).
Proof.
  cbn [valid_binary]. unfold bounded, canonical_mantissa, fexp, emin.
  replace (3 - 1024 - 53) with (-1074) by reflexivity.
  intros [Hc _]%andb_prop. apply Z.eqb_eq in Hc.
  pose proof (digits2_pos_bounds m) as [Hlo Hhi].
  split.
  - assert (Zpos (digits2_pos m) <= 53) by lia.
    assert (2 ^ Zpos (digits2_pos m) <= 2 ^ 53) by (apply Z.pow_le_mono_r; lia).
    lia.
  - intros He. assert (Zpos (digits2_pos m) = 53) as Hd by lia.
    now rewrite Hd in Hlo.
Qed.


(** ** calculate_square *)

Lemma int_pow_2_mul (z : Z) : int_pow_2 z = z * z.
Proof. unfold int_pow_2. apply Z.pow_2_r. Qed.

Lemma f64_eqb_one (m : positive) (e : Z) :
  f64_eqb (S754_finite false m e) f64_one = true ->
  m = 4503599627370496%positive /\ e = -52.
Proof.
  unfold f64_eqb, SFeqb, SFcompare, f64_one.
  destruct (Z.compare_spec e (-52)) as [He| |]; try discriminate.
  destruct (Pos.compare_cont Eq m 4503599627370496) eqn:Hm; try discriminate.
  intros _. split; [|exact He]. now apply Pos.compare_eq.
Qed.

Lemma f64_mul_sign (s : bool) (m : positive) (e : Z) :
  f64_mul (S754_finite false m e) (S754_finite false m e) =
  f64_mul (S754_finite s m e) (S754_finite s m e).
Proof. unfold f64_mul, SFmul. now destruct s. Qed.

(** The square of a double: infinite exactly from [2^512] on, whichever
    way the last bit is rounded. *)
Lemma valid_square_is_inf (rnd : Z -> location -> Z) (s : bool)
    (m : positive) (e : Z) :
  (forall mx lx, mx <= rnd mx lx <= mx + 1) ->
  valid_binary 53 1024 (S754_finite s m e) = true ->
  is_inf (binary_round_with rnd false (Zpos (m * m)) (e + e) loc_Exact)
  = (460 <=? e).
Proof.
  intros Hrnd Hvalid. apply valid_mantissa in Hvalid as [Hlt Hge].
  rewrite Pos2Z.inj_mul.
  assert (0 < 2 ^ 52) as H52 by reflexivity.
  assert (2 ^ 53 = 2 * 2 ^ 52) as H53 by reflexivity.
  destruct (Z.leb_spec 460 e) as [He|He].
  - specialize (Hge ltac:(lia)).
    rewrite binary_round_with_overflow; [reflexivity | exact Hrnd | | lia].
    change (2 ^ 104) with (2 ^ 52 * 2 ^ 52).
    apply Z.mul_le_mono_nonneg; lia.
  - assert (Zpos m * Zpos m <= (2 ^ 53 - 1) * (2 ^ 53 - 1)) as Hsq
      by (apply Z.mul_le_mono_nonneg; lia).
    assert (Zpos m * Zpos m < 2 ^ 106 - 2 ^ 53) as Hmax.
    { change (2 ^ 106) with (2 ^ 53 * 2 ^ 53). lia. }
    destruct (Z.eq_dec e 459) as [->|Hne].
    + apply binary_round_with_below_max; [exact Hrnd | lia].
    + apply binary_round_with_in_range with (k := 106);
        [exact Hrnd | lia | | lia | lia].
      change (2 ^ 106) with (2 ^ 53 * 2 ^ 53) in *. lia.
Qed.

Lemma f64_mul_in_directions (f : spec_float) :
  f64_mul f f = f64_square_dir false f \/ f64_mul f f = f64_square_dir true f.
Proof.
  destruct f as [s|s| |s m e].
  - left. now destruct s.
  - left. now destruct s.
  - now left.
  - rewrite <- (f64_mul_sign s). unfold f64_mul, SFmul, f64_square_dir.
    cbn [xorb].
    destruct (nearest_is_directed false (Zpos (m * m)) (e + e) loc_Exact)
      as [[|] Hup]; [right | left]; exact Hup.
Qed.

(** [iv ** 2] on a float, on every platform: [OverflowError] when the
    product [iv * iv] of a finite [iv] overflows, otherwise the exact
    square rounded down or up. *)
Lemma float_pow_2_cases (up : libm) (f : spec_float) :
  (square_overflows (PyFloat f) = true
   /\ float_pow_2 up f = Raise OverflowError)
  \/ (square_overflows (PyFloat f) = false
      /\ exists r : spec_float,
           float_pow_2 up f = Ok r
           /\ (r = f64_square_dir false f \/ r = f64_square_dir true f)).
Proof.
  destruct f as [s|s| |s m e].
  - right. split; [reflexivity|]. exists f64_zero. now destruct s; repeat split; left.
  - right. split; [reflexivity|]. exists (S754_infinity false).
    now destruct s; repeat split; left.
  - right. split; [reflexivity|]. exists S754_nan. now repeat split; left.
  - unfold float_pow_2. cbn [is_nan is_inf].
    replace (f64_eqb (S754_finite s m e) f64_zero) with false
      by now destruct s.
    replace (if f64_ltb (S754_finite s m e) f64_zero
             then SFopp (S754_finite s m e) else S754_finite s m e)
      with (S754_finite false m e) by now destruct s.
    cbn [square_overflows]. rewrite <- (f64_mul_sign s).
    destruct (f64_eqb (S754_finite false m e) f64_one) eqn:Hone.
    { apply f64_eqb_one in Hone as [-> ->]. right.
      split; [reflexivity|]. exists f64_one. split; [reflexivity|].
      left. reflexivity. }
    unfold libm_pow_2.
    destruct (valid_binary 53 1024 (S754_finite false m e)) eqn:Hvalid.
    + set (b := up (S754_finite false m e)).
      assert (is_inf (f64_square_dir b (S754_finite false m e)) = (460 <=? e))
        as Hdir.
      { unfold f64_square_dir.
        exact (valid_square_is_inf _ false m e (round_directed_bounds b) Hvalid). }
      assert (is_inf (f64_mul (S754_finite false m e) (S754_finite false m e))
              = (460 <=? e)) as Hmul.
      { unfold f64_mul, SFmul. cbn [xorb]. rewrite binary_round_aux_with.
        exact (valid_square_is_inf _ false m e round_nearest_even_bounds Hvalid). }
      rewrite Hdir, Hmul.
      destruct (460 <=? e); [left; split; reflexivity|].
      right. split; [reflexivity|]. eexists. split; [reflexivity|].
      unfold f64_square_dir. destruct b; [now right | now left].
    + destruct (is_inf (f64_mul (S754_finite false m e) (S754_finite false m e)))
        eqn:Hinf; [left; split; reflexivity|].
      right. split; [reflexivity|]. eexists. split; [reflexivity|].
      apply (f64_mul_in_directions (S754_finite false m e)).
Qed.

Lemma pow_2_cases (up : libm) (x : pynum) :
  (square_overflows x = true /\ pow_2 up x = Raise OverflowError)
  \/ (square_overflows x = false
      /\ exists y : pynum,
           pow_2 up x = Ok y
           /\ kind_of y = kind_of x
           /\ square_up_to_rounding x y).
Proof.
  destruct x as [z|f].
  - right. split; [reflexivity|]. exists (PyInt (z * z)).
    cbn [pow_2]. rewrite int_pow_2_mul. repeat split.
  - cbn [pow_2].
    destruct (float_pow_2_cases up f) as [[Hov ->]|(Hov & r & -> & Hr)].
    + left. now split.
    + right. split; [exact Hov|]. exists (PyFloat r). repeat split. exact Hr.
Qed.



Example two_pow_600_valid : valid_binary 53 1024 two_pow_600 = true.
Proof. reflexivity. Qed.

(** On both sample platforms [(2.0 ** 600) ** 2] raises, and the product
    is [inf]. *)
Example two_pow_600_python :
  float_pow_2 libm_down two_pow_600 = Raise OverflowError
  /\ float_pow_2 libm_up two_pow_600 = Raise OverflowError
  /\ f64_mul two_pow_600 two_pow_600 = S754_infinity false.
Proof. repeat split; vm_compute; reflexivity. Qed.

(** The two directions at 2.759 and at 95.97: the product [x * x] is the
    upper neighbour of the exact square at 2.759 and the lower one at
    95.97, so a [pow] that rounds the other way differs from the product
    in the last bit. *)
Example last_bit_samples :
  f64_square_dir false f64_2_759
  = S754_finite false 8570441288778507 (-50)
  /\ f64_mul f64_2_759 f64_2_759 = S754_finite false 8570441288778508 (-50)
  /\ f64_square_dir true f64_95_97
     = S754_finite false 5063383482084046 (-39)
  /\ f64_mul f64_95_97 f64_95_97 = S754_finite false 5063383482084045 (-39).
Proof. repeat split; vm_compute; reflexivity. Qed.




(** C7, as the specification states it, fails on the same input: a float
    goes in and no float comes out, the call raises (on every platform,
    see the theorem below; evaluated here on one). *)
Lemma calculate_square_kind_lost :
  ~ exists y : pynum,
      fst (calculate_square libm_down (PyFloat two_pow_600) empty_world) = Ok y
      /\ kind_of y = kind_of (PyFloat two_pow_600).
Proof.
  intros (y & Hy & _). vm_compute in Hy. discriminate.
Qed.

(** C7, amended.  On every platform: for every integer input the result is
    an integer.  For every float input the result is a float, unless the
    input is finite and its square overflows the double range: then there
    is no result, the call raises [OverflowError]. *)
Theorem calculate_square_kind :
  (forall (up : libm) (z : Z) (w : world),
      exists y : pynum,
        calculate_square up (PyInt z) w = (Ok y, w) /\ kind_of y = KInt)
  /\ (forall (up : libm) (f : spec_float) (w : world),
         square_overflows (PyFloat f) = false ->
         exists y : pynum,
           calculate_square up (PyFloat f) w = (Ok y, w)
           /\ kind_of y = KFloat)
  /\ (forall (up : libm) (f : spec_float) (w : world),
         square_overflows (PyFloat f) = true ->
         calculate_square up (PyFloat f) w = (Raise OverflowError, w)).
Proof.
  split; [|split].
  - intros up z w. eexists. split; reflexivity.
  - intros up f w Hf. unfold calculate_square.
    destruct (pow_2_cases up (PyFloat f)) as [[Hov _]|(_ & y & -> & Hk & _)];
      [congruence|].
    exists y. split; [reflexivity | exact Hk].
  - intros up f w Hf. unfold calculate_square.
    destruct (pow_2_cases up (PyFloat f)) as [[_ ->]|[Hov _]];
      [reflexivity | congruence].
Qed.

Lemma calculate_square_kind_witness :
  (square_overflows (PyFloat f64_one) = false
   /\ exists y : pynum,
        calculate_square libm_down (PyFloat f64_one) empty_world
        = (Ok y, empty_world)
        /\ kind_of y = KFloat)
  /\ (square_overflows (PyFloat two_pow_600) = true
      /\ calculate_square libm_down (PyFloat two_pow_600) empty_world
         = (Raise OverflowError, empty_world)).
Proof.
  split; split.
  - reflexivity.
  - apply (proj1 (proj2 calculate_square_kind) libm_down f64_one empty_world).
    reflexivity.
  - reflexivity.
  - apply (proj2 (proj2 calculate_square_kind)
             libm_down two_pow_600 empty_world).
    reflexivity.
Defined.

(** * Further properties *)

(** ** fibonacci: how calls relate *)

Lemma terms_prefix (a b : nat) :
  (a <= b)%nat -> terms b = terms a ++ map F (seq a (b - a)).
Proof.
  intros Hab. unfold terms.
  rewrite <- map_app, <- seq_app. do 2 f_equal. lia.
Qed.

(** X1.  A shorter call is a prefix of a longer one: for [m <= n], the list
    [fibonacci(n)] starts with the list [fibonacci(m)], whatever the worlds
    the two calls run in. *)
Theorem fibonacci_prefix :
  forall (m n : Z) (w1 w2 : world),
    m <= n ->
    exists lm ln rest : list Z,
      returned_list (fibonacci m) w1 = Ok lm
      /\ returned_list (fibonacci n) w2 = Ok ln
      /\ ln = lm ++ rest.
Proof.
  intros m n w1 w2 Hmn.
  exists (first_terms m), (first_terms n).
  eexists. split; [apply fibonacci_returns|].
  split; [apply fibonacci_returns|].
  unfold first_terms. apply terms_prefix. lia.
Qed.

Lemma fibonacci_prefix_witness :
  3 <= 8 /\
  exists lm ln rest : list Z,
    returned_list (fibonacci 3) empty_world = Ok lm
    /\ returned_list (fibonacci 8) empty_world = Ok ln
    /\ ln = lm ++ rest.
Proof.
  split; [lia|].
  apply (fibonacci_prefix 3 8 empty_world empty_world). lia.
Defined.

(** X2.  Results are never shared between calls.  When a caller takes the
    list of [fibonacci(n)], appends [v] to it and then calls [fibonacci(m)],
    the second call returns a different object holding the unspoilt first
    [m] terms, and the first list holds its [n] terms followed by [v]. *)
Theorem fibonacci_results_not_shared :
  forall (n m v : Z) (w : world),
  exists (r1 r2 : loc) (w' : world),
    (r1 <- fibonacci n ;;
     list_append r1 v ;;
     r2 <- fibonacci m ;;
     ret (r1, r2)) w = (Ok (r1, r2), w')
    /\ r1 <> r2
    /\ heap w' !! r1 = Some (first_terms n ++ [v])
    /\ heap w' !! r2 = Some (first_terms m).
Proof.
  intros n m v w.
  unfold bind at 1. rewrite fibonacci_run.
  set (r1 := fresh (dom (heap w))).
  set (h1 := <[r1 := first_terms n]> (heap w)).
  unfold bind at 1. unfold list_append at 1. cbn [heap trace].
  assert (h1 !! r1 = Some (first_terms n)) as Hr1 by apply lookup_insert_eq.
  rewrite Hr1.
  unfold bind at 1. rewrite fibonacci_run. cbn [heap trace]. unfold ret.
  set (h2 := <[r1 := first_terms n ++ [v]]> h1).
  set (r2 := fresh (dom h2)).
  assert (r1 <> r2) as Hne.
  { intros Heq. pose proof (is_fresh (dom h2)) as Hfresh. fold r2 in Hfresh.
    apply Hfresh. rewrite <- Heq. apply elem_of_dom.
    exists (first_terms n ++ [v]). apply lookup_insert_eq. }
  exists r1, r2. eexists. split; [reflexivity|]. cbn [heap].
  split; [exact Hne|]. split.
  - rewrite lookup_insert_ne by congruence. apply lookup_insert_eq.
  - apply lookup_insert_eq.
Qed.

(** ** fibonacci: cost *)

Lemma count_events_app (p : event -> bool) (evs1 evs2 : list event) :
  count_events p (evs1 ++ evs2) =
  (count_events p evs1 + count_events p evs2)%nat.
Proof. unfold count_events. now rewrite List.filter_app, length_app. Qed.

Lemma count_loop_events (r : loc) (m : nat) :
  forall k : nat,
    count_events is_alloc (loop_events r k m) = 0%nat
    /\ count_events is_read (loop_events r k m) = (2 * m)%nat
    /\ count_events is_append (loop_events r k m) = m.
Proof.
  induction m as [|m IH]; intros k; cbn [loop_events].
  - repeat split.
  - destruct (IH (S k)) as (Ha & Hr & Hp).
    rewrite !count_events_app, Ha, Hr, Hp. cbn. lia.
Qed.

(** X3.  The work of [fibonacci(n)] is linear in [n]: one list is
    allocated, and the loop performs exactly [2 * max(n - 2, 0)] index
    reads and [max(n - 2, 0)] appends. *)
Theorem fibonacci_linear_work :
  forall (n : Z) (w : world),
  exists (r : loc) (w' : world) (evs : list event),
    fibonacci n w = (Ok r, w')
    /\ trace w' = evs ++ trace w
    /\ count_events is_alloc evs = 1%nat
    /\ Z.of_nat (count_events is_read evs) = 2 * Z.max (n - 2) 0
    /\ Z.of_nat (count_events is_append evs) = Z.max (n - 2) 0.
Proof.
  intros n w. pose proof (fibonacci_run n w) as Hrun. cbv zeta in Hrun.
  eexists _, _, _. split; [exact Hrun|]. cbn [trace].
  split; [reflexivity|]. unfold fibonacci_events.
  destruct (count_loop_events (fresh (dom (heap w))) (Z.to_nat (n - 2)) 2)
    as (Ha & Hr & Hp).
  rewrite !count_events_app, Ha, Hr, Hp. cbn. lia.
Qed.

(** ** fibonacci: reading the result *)

(** X4.  Indexing the list of [fibonacci(n)], of length [N = max(n, 0)]:
    an index [k] with [-N <= k < N] yields the reference term
    [F(k mod N)], so negative indices count from the end and [-1] is the
    last term; every other index raises [IndexError], and on the empty
    result every index does. *)
Theorem fibonacci_indexing :
  forall (n k : Z) (w : world),
  exists l : list Z,
    returned_list (fibonacci n) w = Ok l
    /\ getitem l k =
       if (- Z.max n 0 <=? k) && (k <? Z.max n 0)
       then Ok (F (Z.to_nat (k mod Z.max n 0)))
       else Raise IndexError.
Proof.
  intros n k w. exists (first_terms n).
  split; [apply fibonacci_returns|].
  unfold first_terms.
  set (N := Z.to_nat n).
  replace (Z.max n 0) with (Z.of_nat N) by lia.
  destruct (Z.leb_spec (- Z.of_nat N) k) as [Hlo|Hlo];
    destruct (Z.ltb_spec k (Z.of_nat N)) as [Hhi|Hhi]; cbn [andb].
  - destruct (Z.ltb_spec k 0) as [Hneg|Hpos].
    + replace (k mod Z.of_nat N) with (k + Z.of_nat N)
        by (apply Z.mod_unique with (q := -1); lia).
      unfold getitem. rewrite length_terms.
      assert ((k <? 0) = true) as -> by lia. cbv zeta.
      assert ((k + Z.of_nat N <? 0) = false) as -> by lia.
      assert ((Z.of_nat N <=? k + Z.of_nat N) = false) as -> by lia.
      cbn [orb]. now rewrite nth_error_terms by lia.
    + rewrite Z.mod_small by lia.
      rewrite <- (Z2Nat.id k) at 1 by lia.
      apply getitem_terms. lia.
  - unfold getitem. rewrite length_terms.
    assert ((k <? 0) = false) as -> by lia. cbv zeta.
    assert ((k <? 0) = false) as -> by lia.
    assert ((Z.of_nat N <=? k) = true) as -> by lia.
    reflexivity.
  - unfold getitem. rewrite length_terms.
    assert ((k <? 0) = true) as -> by lia. cbv zeta.
    assert ((k + Z.of_nat N <? 0) = true) as -> by lia.
    reflexivity.
  - lia.
Qed.

(** ** fibonacci: strict growth *)



(** ** calculate_square: sign *)


Lemma f64_square_dir_sign_clear (up : bool) (f : spec_float) :
  sign_clear (PyFloat (f64_square_dir up f)) = true.
Proof.
  destruct f as [s|s| |s m e]; try reflexivity.
  apply binary_round_with_sign_clear.
Qed.

(** X7.  [calculate_square] never returns a number with a minus sign: an
    int result is [>= 0], and a float result is NaN or has its sign bit
    clear, so not even [-0.0] comes out. *)
Theorem calculate_square_sign_clear :
  forall (up : libm) (x y : pynum) (w : world),
    fst (calculate_square up x w) = Ok y -> sign_clear y = true.
Proof.
  intros up x y w. unfold calculate_square. cbn [fst].
  destruct (pow_2_cases up x) as [[_ ->]|(_ & y' & -> & _ & Hy)];
    [discriminate|].
  intros [= <-].
  destruct x as [z|f], y' as [z'|r]; cbn [square_up_to_rounding] in Hy;
    try contradiction.
  - subst z'. cbn [sign_clear]. apply Z.leb_le, Z.square_nonneg.
  - destruct Hy as [-> | ->]; apply f64_square_dir_sign_clear.
Qed.

Lemma calculate_square_sign_clear_witness :
  fst (calculate_square libm_down (PyFloat (S754_zero true)) empty_world)
  = Ok (PyFloat (S754_zero false))
  /\ sign_clear (PyFloat (S754_zero false)) = true.
Proof.
  split; [reflexivity|].
  apply (calculate_square_sign_clear libm_down
           (PyFloat (S754_zero true)) (PyFloat (S754_zero false)) empty_world).
  reflexivity.
Defined.

(** X8.  On integers the square can be undone: the integer square root of
    [calculate_square(x)] is [abs(x)], so two integers have the same
    square only if they agree up to sign. *)
Theorem calculate_square_int_sqrt :
  forall (up : libm) (z : Z) (w : world),
  exists y : Z,
    calculate_square up (PyInt z) w = (Ok (PyInt y), w)
    /\ Z.sqrt y = Z.abs z.
Proof.
  intros up z w. exists (z * z). split.
  - unfold calculate_square. cbn [pow_2]. now rewrite int_pow_2_mul.
  - rewrite <- Z.abs_square. apply Z.sqrt_square. apply Z.abs_nonneg.
Qed.

(** ** greet: the name can be read back *)

Lemma list_ascii_of_string_append (s t : string) :
  list_ascii_of_string (String.append s t) =
  list_ascii_of_string s ++ list_ascii_of_string t.
Proof.
  induction s as [|c s IH]; [reflexivity|].
  change (c :: list_ascii_of_string (String.append s t) =
          c :: (list_ascii_of_string s ++ list_ascii_of_string t)).
  now rewrite IH.
Qed.

Lemma string_append_inv_tail (s1 s2 t : string) :
  String.append s1 t = String.append s2 t -> s1 = s2.
Proof.
  intros H. apply (f_equal list_ascii_of_string) in H.
  rewrite !list_ascii_of_string_append in H.
  apply app_inv_tail in H.
  rewrite <- (string_of_list_ascii_of_string s1).
  rewrite <- (string_of_list_ascii_of_string s2).
  now rewrite H.
Qed.

(** X9.  [greet] is injective: two greetings are equal only if the names
    are, so the name can always be recovered from the greeting. *)
Theorem greet_injective :
  forall (s1 s2 : string) (w1 w2 : world),
    fst (greet s1 w1) = fst (greet s2 w2) -> s1 = s2.
Proof.
  intros s1 s2 w1 w2. unfold greet, ret. cbn [fst joined_str].
  unfold format_value. intros [= H].
  change (String.append s1 "! Welcome to Jupyter notebooks!" =
          String.append s2 "! Welcome to Jupyter notebooks!") in H.
  now apply string_append_inv_tail in H.
Qed.

Lemma greet_injective_witness :
  fst (greet "Ada" empty_world) = fst (greet "Ada" (World ∅ [EvIter 0]))
  /\ "Ada"%string = "Ada"%string.
Proof.
  split; [reflexivity|].
  apply (greet_injective "Ada" "Ada" empty_world (World ∅ [EvIter 0])).
  reflexivity.
Defined.

(** ** calculate_square: where the float range ends *)

(** X10.  Every finite float of magnitude [2.0 ** 512] or more makes
    [calculate_square] raise [OverflowError]; the world is left as it
    was. *)
Theorem calculate_square_overflow_range :
  forall (up : libm) (f : spec_float) (w : world),
    valid_binary 53 1024 f = true ->
    is_inf f = false ->
    f64_leb two_pow_512 (SFabs f) = true ->
    calculate_square up (PyFloat f) w = (Raise OverflowError, w).
Proof.
  intros up f w Hvalid Hfin Hbig. unfold calculate_square.
  enough (square_overflows (PyFloat f) = true) as Hov.
  { destruct (pow_2_cases up (PyFloat f)) as [[_ ->]|[Hno _]];
      [reflexivity | congruence]. }
  destruct f as [s|s| |s m e]; try discriminate.
  assert (460 <= e) as He.
  { unfold f64_leb, SFleb, two_pow_512 in Hbig. cbn [SFabs SFcompare] in Hbig.
    destruct (Z.compare_spec 460 e); [lia | lia | discriminate]. }
  cbn [square_overflows]. rewrite <- (f64_mul_sign s).
  unfold f64_mul, SFmul. cbn [xorb]. rewrite binary_round_aux_with.
  rewrite (valid_square_is_inf _ s m e round_nearest_even_bounds Hvalid).
  now apply Z.leb_le.
Qed.

Lemma calculate_square_overflow_range_witness :
  valid_binary 53 1024 two_pow_512 = true
  /\ is_inf two_pow_512 = false
  /\ f64_leb two_pow_512 (SFabs two_pow_512) = true
  /\ calculate_square libm_down (PyFloat two_pow_512) empty_world
     = (Raise OverflowError, empty_world).
Proof.
  split; [reflexivity|]. split; [reflexivity|]. split; [reflexivity|].
  apply (calculate_square_overflow_range libm_down two_pow_512 empty_world);
    reflexivity.
Defined.

Lemma le_two_pow_511 (m : positive) (e : Z) :
  f64_leb (S754_finite false m e) two_pow_511 = true -> e <= 459.
Proof.
  unfold f64_leb, SFleb, two_pow_511, SFcompare.
  destruct (Z.compare_spec e 459) as [He|He|He]; [lia | lia | discriminate].
Qed.

(** X11.  Every float of magnitude at most [2.0 ** 511], zeros and
    subnormals included, is squared without an exception: the call returns
    a float, the exact square rounded down or up to a double, and leaves
    the world as it was. *)
Theorem calculate_square_safe_range :
  forall (up : libm) (f : spec_float) (w : world),
    valid_binary 53 1024 f = true ->
    f64_leb (SFabs f) two_pow_511 = true ->
    exists r : spec_float,
      calculate_square up (PyFloat f) w = (Ok (PyFloat r), w)
      /\ (r = f64_square_dir false f \/ r = f64_square_dir true f).
Proof.
  intros up f w Hvalid Hsmall. unfold calculate_square.
  enough (square_overflows (PyFloat f) = false) as Hov.
  { destruct (pow_2_cases up (PyFloat f)) as [[Hyes _]|(_ & y & -> & Hk & Hy)];
      [congruence|].
    destruct y as [z|r]; [discriminate|]. exists r. now split. }
  destruct f as [s|s| |s m e]; try reflexivity.
  cbn [SFabs] in Hsmall. apply le_two_pow_511 in Hsmall.
  cbn [square_overflows]. rewrite <- (f64_mul_sign s).
  unfold f64_mul, SFmul. cbn [xorb]. rewrite binary_round_aux_with.
  rewrite (valid_square_is_inf _ s m e round_nearest_even_bounds Hvalid).
  apply Z.leb_gt. lia.
Qed.

Lemma calculate_square_safe_range_witness :
  valid_binary 53 1024 f64_95_97 = true
  /\ f64_leb (SFabs f64_95_97) two_pow_511 = true
  /\ exists r : spec_float,
       calculate_square libm_up (PyFloat f64_95_97) empty_world
       = (Ok (PyFloat r), empty_world)
       /\ (r = f64_square_dir false f64_95_97
           \/ r = f64_square_dir true f64_95_97).
Proof.
  split; [reflexivity|]. split; [reflexivity|].
  apply (calculate_square_safe_range libm_up f64_95_97 empty_world);
    reflexivity.
Defined.

(** ** greet: size of the greeting *)

Lemma string_length_append (s t : string) :
  String.length (String.append s t) =
  (String.length s + String.length t)%nat.
Proof.
  induction s as [|c s IH]; [reflexivity|].
  change (S (String.length (String.append s t)) =
          S (String.length s + String.length t)).
  now rewrite IH.
Qed.

(** X12.  The greeting is always 38 characters longer than the name: the
    fixed text contributes 7 characters before it and 31 after it, so the
    result is never empty. *)
Theorem greet_length :
  forall (s : string) (w : world),
  exists g : string,
    greet s w = (Ok g, w)
    /\ String.length g = (38 + String.length s)%nat.
Proof.
  intros s w. eexists. split; [reflexivity|].
  cbn [joined_str]. unfold format_value.
  rewrite !string_length_append. cbn [String.length]. lia.
Qed.
